(** * osmium::StringMatcher (osmium/util/string_matcher.hpp)

    A shallow embedding of the string matcher of libosmium as it is
    vendored in this repository, and the properties of its payload classes
    [always_false], [always_true], [equal], [prefix], [substring], [regex]
    and [list], of the variant dispatch and of the diagnostic printer.

    A [std::string] is a counted byte sequence: it may hold any byte,
    the NUL byte included.  A [const char *] is a pointer to bytes that are
    read up to the first NUL.  The two views differ exactly on texts with
    an embedded NUL, and every payload's [match] receives a [const char *]. *)

From Stdlib Require Import List ZArith NArith Bool Lia.
From Stdlib Require Import Strings.Byte Strings.String.
Import ListNotations.

Local Open Scope list_scope.

(** ** Bytes, counted strings and C strings *)

Abbreviation byte := Byte.byte.

(** [std::string]: the bytes [data()[0 .. size())]. *)
Definition std_string : Type := list byte.

(** [const char *]: the bytes found from the pointer on.  A C string ends at
    its first NUL; a read past the end of the modelled bytes yields NUL. *)
Definition cptr : Type := list byte.

Definition NUL : byte := x00.

Definition is_nul (b : byte) : bool := Byte.eqb b NUL.

(** A string literal of the source, as its bytes. *)
Definition lit (s : String.string) : std_string := list_byte_of_string s.

(** [std::string::c_str()]: the bytes of the string followed by a NUL. *)
Definition c_str (s : std_string) : cptr := s ++ [NUL].

(** The characters of the C string at [p]: the bytes before the first NUL,
    that is the first [strlen p] bytes. *)
Fixpoint cstr (p : cptr) : list byte :=
  match p with
  | [] => []
  | b :: p' => if is_nul b then [] else b :: cstr p'
  end.

(** [std::strlen] / [char_traits<char>::length]. *)
Fixpoint strlen (p : cptr) : N :=
  match p with
  | [] => 0
  | b :: p' => if is_nul b then 0 else N.succ (strlen p')
  end.

(** Whether a counted string holds a NUL byte. *)
Definition has_nul (s : std_string) : bool := existsb is_nul s.

Definition nul_free (s : std_string) : Prop := has_nul s = false.

(** [*p] for a [const char * p], as an [unsigned char]. *)
Definition deref (p : cptr) : byte := hd NUL p.

Definition uchar (b : byte) : Z := Z.of_N (Byte.to_N b).

(** [std::strcmp]: walks both strings while the bytes agree and are not
    NUL; the result is the difference of the first pair that differs (as
    [unsigned char]), [0] when both strings end together. *)
Fixpoint strcmp (l r : cptr) : Z :=
  match l with
  | [] => uchar NUL - uchar (deref r)
  | a :: l' =>
      if Byte.eqb a (deref r)
      then if is_nul a then 0 else strcmp l' (tl r)
      else uchar a - uchar (deref r)
  end.

(** Whether the characters of the C string [needle] are found at the very
    start of the C string [hay]. *)
Fixpoint found_at (hay needle : cptr) {struct needle} : bool :=
  match needle with
  | [] => true
  | c :: needle' =>
      if is_nul c then true
      else match hay with
           | [] => false
           | d :: hay' =>
               if is_nul d then false
               else if Byte.eqb d c then found_at hay' needle' else false
           end
  end.

(** [std::strstr]: a pointer to the first occurrence of the C string
    [needle] in the C string [hay], or the null pointer ([None]). *)
Fixpoint strstr (hay needle : cptr) : option cptr :=
  if found_at hay needle then Some hay
  else match hay with
       | [] => None
       | d :: hay' => if is_nul d then None else strstr hay' needle
       end.

(** The [std::string] constructor from a [const char *]: copies the
    characters of the C string. *)
Definition string_of_cstr (p : cptr) : std_string := cstr p.

Definition size (s : std_string) : N := N.of_nat (List.length s).

(** [size_type] as a count: sizes are unbounded in this model, and
    [std::string::npos], the greatest value of the type, lies above each
    of them. *)
Inductive count_type : Type :=
| chars (n : N)
| npos.

(** [min(count, rest)]. *)
Definition clamp (count : count_type) (rest : N) : N :=
  match count with
  | chars n => N.min n rest
  | npos => rest
  end.

(** The characters [pos, pos + min(count, size() - pos))] of a string, for
    [pos <= size()]. *)
Definition substr (s : std_string) (pos : N) (count : count_type)
    : std_string :=
  firstn (N.to_nat (clamp count (size s - pos))) (skipn (N.to_nat pos) s).

(** [char_traits<char>::compare] over the common length, then the
    difference of the lengths: the three-way comparison of two character
    sequences that [basic_string::compare] returns. *)
Fixpoint compare_seq (a b : list byte) : Z :=
  match a, b with
  | [], [] => 0
  | [], _ :: _ => -1
  | _ :: _, [] => 1
  | x :: a', y :: b' =>
      if Byte.eqb x y then compare_seq a' b' else uchar x - uchar y
  end.

(** [basic_string::compare(pos1, count1, str, pos2, count2)]; it throws
    [std::out_of_range] ([None]) when a position lies beyond its string. *)
Definition compare (this : std_string) (pos1 : N) (count1 : count_type)
    (str : std_string) (pos2 : N) (count2 : count_type) : option Z :=
  if (size this <? pos1)%N then None
  else if (size str <? pos2)%N then None
  else Some (compare_seq (substr this pos1 count1) (substr str pos2 count2)).

(** [basic_string::compare] with a [const char *] argument: the whole
    string against the characters of the C string. *)
Definition compare_cstr (this : std_string) (p : cptr) : Z :=
  compare_seq this (cstr p).

(** [operator==] of a [std::string] and a [const char *]. *)
Definition string_eq_cstr (s : std_string) (p : cptr) : bool :=
  (compare_cstr s p =? 0)%Z.

(** [std::any_of] over a range, with its early exit. *)
Fixpoint any_of {A : Type} (range : list A) (pred : A -> bool) : bool :=
  match range with
  | [] => false
  | x :: range' => if pred x then true else any_of range' pred
  end.

(** ** Output streams

    A [std::basic_ostream] is the sequence of bytes written to it so far
    (no field width or padding is set on it).  [out << x] is overloaded on
    the type of [x]. *)

Definition ostream : Type := list byte.

Class Insertable (A : Type) : Type := insert : ostream -> A -> ostream.

#[global] Instance insert_literal : Insertable String.string :=
  fun out s => out ++ lit s.

#[global] Instance insert_char : Insertable byte :=
  fun out c => out ++ [c].

#[global] Instance insert_string : Insertable std_string :=
  fun out s => out ++ s.

Notation "out << x" := (insert out x) (at level 40, left associativity).

(** ** The regular expression capability *)

Inductive construction_error : Type := InvalidPattern.

Inductive result (A : Type) : Type :=
| Ok (a : A)
| Err (e : construction_error).

Arguments Ok {A} a.
Arguments Err {A} e.

(** Modelled from the spec: the regular expression engine ([std::regex] of
    the C++ standard library, its constructor from pattern text and
    [std::regex_search]), which the matcher consumes and which is not part
    of the sources.  It compiles pattern text into a compiled pattern or
    fails with [InvalidPattern], and searches a compiled pattern anywhere
    within a character sequence. *)
Class RegexCapability : Type := {
  std_regex : Type;
  regex_compile : std_string -> result std_regex;
  regex_search_range : list byte -> std_regex -> bool
}.

(** [std::regex_search] on a [const char *]: the search over the range
    from the pointer to [strlen] bytes further. *)
Definition regex_search `{RegexCapability} (str : cptr) (e : std_regex)
    : bool :=
  regex_search_range (firstn (N.to_nat (strlen str)) str) e.

(** ** The matcher classes *)

Module StringMatcher.

(** Never matches. *)
Module always_false.
Inductive t : Type := make.

Definition match_ (test_string : cptr) : bool := false.

Definition print (self : t) (out : ostream) : ostream :=
  out << "always_false"%string.
End always_false.

(** Always matches. *)
Module always_true.
Inductive t : Type := make.

Definition match_ (test_string : cptr) : bool := true.

Definition print (self : t) (out : ostream) : ostream :=
  out << "always_true"%string.
End always_true.

(** Matches if the test string is equal to the stored string. *)
Module equal.
Record t : Type := make_from_string { m_str : std_string }.

Definition make_from_cstr (str : cptr) : t :=
  {| m_str := string_of_cstr str |}.

Definition match_ (self : t) (test_string : cptr) : bool :=
  (strcmp (c_str (m_str self)) test_string =? 0)%Z.

Definition print (self : t) (out : ostream) : ostream :=
  out << "equal["%string << m_str self << "]"%byte.
End equal.

(** Matches if the test string starts with the stored string. *)
Module prefix.
Record t : Type := make_from_string { m_str : std_string }.

Definition make_from_cstr (str : cptr) : t :=
  {| m_str := string_of_cstr str |}.

(** The call has five arguments, so it is the overload that takes a
    [std::string]: the test string is first converted to one. *)
Definition match_ (self : t) (test_string : cptr) : option bool :=
  match compare (m_str self) 0 npos
                (string_of_cstr test_string) 0 (chars (size (m_str self))) with
  | Some r => Some (r =? 0)%Z
  | None => None
  end.

Definition print (self : t) (out : ostream) : ostream :=
  out << "prefix["%string << m_str self << "]"%byte.
End prefix.

(** Matches if the stored string is found within the test string. *)
Module substring.
Record t : Type := make_from_string { m_str : std_string }.

Definition make_from_cstr (str : cptr) : t :=
  {| m_str := string_of_cstr str |}.

Definition match_ (self : t) (test_string : cptr) : bool :=
  match strstr test_string (c_str (m_str self)) with
  | Some _ => true
  | None => false
  end.

Definition print (self : t) (out : ostream) : ostream :=
  out << "substring["%string << m_str self << "]"%byte.
End substring.

(** Matches if the test string matches the regular expression. *)
Module regex.
Section WithRegex.
Context `{RegexCapability}.

Record t : Type := make { m_regex : std_regex }.

Definition match_ (self : t) (test_string : cptr) : bool :=
  regex_search test_string (m_regex self).

Definition print (self : t) (out : ostream) : ostream :=
  out << "regex"%string.
End WithRegex.
End regex.

(** Matches if the test string is equal to any of the stored strings. *)
Module list.
Record t : Type := make_from_strings { m_strings : list std_string }.

Definition make : t := {| m_strings := [] |}.

(** [add_string] changes the object and returns a reference to it: the
    value returned here is that object, after the change. *)
Definition add_string_cstr (self : t) (str : cptr) : t :=
  {| m_strings := m_strings self ++ [string_of_cstr str] |}.

Definition add_string (self : t) (str : std_string) : t :=
  {| m_strings := m_strings self ++ [str] |}.

Definition match_ (self : t) (test_string : cptr) : bool :=
  any_of (m_strings self) (fun s => string_eq_cstr s test_string).

Definition print (self : t) (out : ostream) : ostream :=
  fold_left (fun o s => o << "["%byte << s << "]"%byte)
            (m_strings self) (out << "list["%string)
    << "]"%byte.
End list.

Section Variant.
Context `{RegexCapability}.

(** [matcher_type]: the variant over the matcher classes; exactly one
    alternative is held at any time.  The [regex] alternative is compiled
    in under [OSMIUM_WITH_REGEX] only: a capability whose [std_regex] has
    no value gives the variant without it. *)
Inductive matcher_type : Type :=
| alt_always_false (m : always_false.t)
| alt_always_true (m : always_true.t)
| alt_equal (m : equal.t)
| alt_prefix (m : prefix.t)
| alt_substring (m : substring.t)
| alt_regex (m : regex.t)
| alt_list (m : list.t).

(** [std::visit(match_visitor{str}, v)].  Every [match] is [noexcept]:
    [None] stands for an exception that would leave one. *)
Definition match_visitor (m_str : cptr) (v : matcher_type) : option bool :=
  match v with
  | alt_always_false _ => Some (always_false.match_ m_str)
  | alt_always_true _ => Some (always_true.match_ m_str)
  | alt_equal m => Some (equal.match_ m m_str)
  | alt_prefix m => prefix.match_ m m_str
  | alt_substring m => Some (substring.match_ m m_str)
  | alt_regex m => Some (regex.match_ m m_str)
  | alt_list m => Some (list.match_ m m_str)
  end.

(** [std::visit(print_visitor{out}, v)]. *)
Definition print_visitor (m_out : ostream) (v : matcher_type) : ostream :=
  match v with
  | alt_always_false m => always_false.print m m_out
  | alt_always_true m => always_true.print m m_out
  | alt_equal m => equal.print m m_out
  | alt_prefix m => prefix.print m m_out
  | alt_substring m => substring.print m m_out
  | alt_regex m => regex.print m m_out
  | alt_list m => list.print m m_out
  end.

Record t : Type := make { m_matcher : matcher_type }.

(** [StringMatcher()]. *)
Definition default : t :=
  {| m_matcher := alt_always_false always_false.make |}.

(** [StringMatcher(bool result)]: starts out as [always_false] and is
    reassigned when [result] holds. *)
Definition of_bool (result : bool) : t :=
  let this := {| m_matcher := alt_always_false always_false.make |} in
  if result then {| m_matcher := alt_always_true always_true.make |}
  else this.

(** [StringMatcher(const char * str)]. *)
Definition of_cstr (str : cptr) : t :=
  {| m_matcher := alt_equal (equal.make_from_cstr str) |}.

(** [StringMatcher(const std::string& str)]. *)
Definition of_string (str : std_string) : t :=
  {| m_matcher := alt_equal (equal.make_from_string str) |}.

(** [StringMatcher(const std::regex& aregex)]. *)
Definition of_regex (aregex : std_regex) : t :=
  {| m_matcher := alt_regex (regex.make aregex) |}.

(** [StringMatcher(const std::vector<std::string>& strings)]. *)
Definition of_strings (strings : Datatypes.list std_string) : t :=
  {| m_matcher := alt_list (list.make_from_strings strings) |}.

(** [StringMatcher(TMatcher&& matcher)], for a matcher class. *)
Definition of_matcher (matcher : matcher_type) : t :=
  {| m_matcher := matcher |}.

(** [operator()(const char * str)]. *)
Definition call_cstr (self : t) (str : cptr) : option bool :=
  match_visitor str (m_matcher self).

(** [operator()(const std::string& str)]. *)
Definition call (self : t) (str : std_string) : option bool :=
  call_cstr self (c_str str).

Definition print (self : t) (out : ostream) : ostream :=
  print_visitor out (m_matcher self).

(** Modelled from the spec: the construction of a matcher from pattern
    text, [StringMatcher{std::regex{pattern}}].  The sources have the
    constructor from a compiled [std::regex] only; the pattern is
    compiled by the capability, whose failure leaves before any
    constructor of the matcher is entered. *)
Definition of_pattern (pattern : std_string) : result t :=
  match regex_compile pattern with
  | Ok aregex => Ok (of_regex aregex)
  | Err e => Err e
  end.
End Variant.

End StringMatcher.

(** [operator<<] of a stream and a matcher. *)
#[global] Instance insert_matcher `{RegexCapability}
    : Insertable StringMatcher.t :=
  fun out matcher => StringMatcher.print matcher out.

(** The text that printing a matcher to a fresh stream gives. *)
Definition describe `{RegexCapability} (m : StringMatcher.t) : std_string :=
  [] << m.

(** ** A small engine to run the matcher with

    Patterns are literal texts; a pattern that holds a parenthesis is
    rejected, every other one compiles to itself and is searched for as a
    substring. *)

Definition literal_compile (pattern : std_string) : result std_string :=
  if existsb (fun b => Byte.eqb b "("%byte || Byte.eqb b ")"%byte) pattern
  then Err InvalidPattern else Ok pattern.

Definition literal_search (range : list byte) (e : std_string) : bool :=
  match strstr (c_str range) (c_str e) with Some _ => true | None => false end.

Definition literal_engine : RegexCapability :=
  {| std_regex := std_string;
     regex_compile := literal_compile;
     regex_search_range := literal_search |}.

(** [StringMatcher{StringMatcher::equal{v}}] and its siblings: a matcher
    that holds the given payload. *)
Definition Equal `{RegexCapability} (v : std_string) : StringMatcher.t :=
  StringMatcher.of_matcher
    (StringMatcher.alt_equal (StringMatcher.equal.make_from_string v)).

Definition Prefix `{RegexCapability} (p : std_string) : StringMatcher.t :=
  StringMatcher.of_matcher
    (StringMatcher.alt_prefix (StringMatcher.prefix.make_from_string p)).

Definition Substring `{RegexCapability} (sub : std_string) : StringMatcher.t :=
  StringMatcher.of_matcher
    (StringMatcher.alt_substring
       (StringMatcher.substring.make_from_string sub)).

Definition List `{RegexCapability} (l : StringMatcher.list.t)
    : StringMatcher.t :=
  StringMatcher.of_matcher (StringMatcher.alt_list l).

Definition Regex `{RegexCapability} (r : std_regex) : StringMatcher.t :=
  StringMatcher.of_matcher
    (StringMatcher.alt_regex (StringMatcher.regex.make r)).

Definition AlwaysTrue `{RegexCapability} : StringMatcher.t :=
  StringMatcher.of_matcher
    (StringMatcher.alt_always_true StringMatcher.always_true.make).

Definition AlwaysFalse `{RegexCapability} : StringMatcher.t :=
  StringMatcher.of_matcher
    (StringMatcher.alt_always_false StringMatcher.always_false.make).

(** * main.cpp: reading the data file

    Files are regular files that do not change while they are read, and a
    read of bytes that the file has does not fail. *)

(** The files that can be opened for reading, by path, with their bytes. *)
Definition file_system : Type := std_string -> option (list byte).

(** A [std::ifstream]: the bytes of the file it is open on, the get
    position, and whether the stream has failed ([!is]). *)
Record ifstream : Type := {
  file_bytes : list byte;
  tellg : N;
  fail : bool
}.

(** [std::ifstream is{path, std::ios::binary | std::ios::ate}]: the file is
    opened with the position at its end; a file that cannot be opened
    leaves the stream failed. *)
Definition ifstream_open_ate (fs : file_system) (path : std_string)
    : ifstream :=
  match fs path with
  | Some bytes => {| file_bytes := bytes; tellg := size bytes; fail := false |}
  | None => {| file_bytes := []; tellg := 0; fail := true |}
  end.

(** [is.seekg(pos)]; a failed stream is left as it is. *)
Definition seekg (is_ : ifstream) (pos : N) : ifstream :=
  if fail is_ then is_
  else {| file_bytes := file_bytes is_; tellg := pos; fail := false |}.

(** [is.read(buf, n)]: the bytes from the get position on, [n] at most,
    overwrite the start of the buffer; the stream fails when the file has
    fewer than [n] left. *)
Definition read (is_ : ifstream) (buf : list byte) (n : N)
    : ifstream * list byte :=
  if fail is_ then (is_, buf)
  else
    let got :=
      firstn (N.to_nat n) (skipn (N.to_nat (tellg is_)) (file_bytes is_)) in
    ({| file_bytes := file_bytes is_;
        tellg := tellg is_ + size got;
        fail := (size got <? n)%N |},
     got ++ skipn (List.length got) buf).

(** [std::vector<std::byte> contents(size)]: [size] zero bytes. *)
Definition vector_of_size (n : N) : list byte := repeat x00 (N.to_nat n).

(** [std::vector::empty] / [std::string::empty]. *)
Definition empty {A : Type} (v : list A) : bool :=
  match v with
  | [] => true
  | _ :: _ => false
  end.

(** [ReadFile]: [None] is [std::nullopt]. *)
Definition ReadFile (fs : file_system) (path : std_string)
    : option (list byte) :=
  let is_ := ifstream_open_ate fs path in
  if fail is_ then None
  else
    let size := tellg is_ in
    let contents := vector_of_size size in
    let is_ := seekg is_ 0 in
    let '(is_, contents) := read is_ contents size in
    if empty contents then None else Some contents.

(** [std::endl]: a newline (and a flush). *)
Definition endl (out : ostream) : ostream := out ++ [x0a].

(** [main]: the exit status and what was written to [std::cout].  Control
    that reaches the end of [main] returns [0]. *)
Definition main (fs : file_system) : Z * ostream :=
  let cout : ostream := [] in
  let location := lit "" in
  let osm_data_file := lit "../data" ++ location ++ lit ".osm.pbf" in
  let osm_data : list byte := [] in
  if empty osm_data && negb (empty osm_data_file) then
    let cout :=
      endl (cout << "Reading OSP data from the following file: "%string
                 << osm_data_file) in
    match ReadFile fs osm_data_file with
    | None =>
        let cout := endl (cout << "Failed to read."%string) in
        (0%Z, cout)
    | Some data =>
        let osm_data := data in
        (0%Z, cout)
    end
  else (0%Z, cout).

(** * Properties *)

(** ** Bytes *)

Lemma byte_eqb_eq (a b : byte) : Byte.eqb a b = true <-> a = b.
Proof.
  split; [apply Byte.byte_dec_bl | apply Byte.byte_dec_lb].
Qed.

Lemma byte_eqb_neq (a b : byte) : Byte.eqb a b = false <-> a <> b.
Proof.
  rewrite <- byte_eqb_eq. destruct (Byte.eqb a b); split; congruence.
Qed.

Lemma is_nul_true (b : byte) : is_nul b = true <-> b = NUL.
Proof. apply byte_eqb_eq. Qed.

Lemma is_nul_false (b : byte) : is_nul b = false <-> b <> NUL.
Proof. apply byte_eqb_neq. Qed.

Lemma uchar_inj (a b : byte) : uchar a = uchar b -> a = b.
Proof.
  unfold uchar. intros E. apply N2Z.inj in E.
  pose proof (Byte.of_to_N a) as Ha. pose proof (Byte.of_to_N b) as Hb.
  rewrite E in Ha. congruence.
Qed.

Lemma uchar_diff_zero (a b : byte) : (uchar a - uchar b = 0)%Z <-> a = b.
Proof.
  split.
  - intros E. apply uchar_inj. lia.
  - intros ->. lia.
Qed.

(** ** C strings *)

Example strcmp_ex : strcmp (c_str (lit "ab")) (c_str (lit "ab")) = 0%Z
  /\ strcmp (c_str (lit "ab")) (c_str (lit "ac")) = (-1)%Z
  /\ strcmp (c_str (lit "ab")) (c_str (lit "a")) = 98%Z
  /\ strcmp (c_str (lit "a")) (c_str (lit "ab")) = (-98)%Z
  /\ strstr (c_str (lit "abcd")) (c_str (lit "bc")) = Some (c_str (lit "bcd"))
  /\ strstr (c_str (lit "abcd")) (c_str (lit "")) = Some (c_str (lit "abcd"))
  /\ strstr (c_str (lit "")) (c_str (lit "")) = Some (c_str (lit ""))
  /\ strstr (c_str (lit "abcd")) (c_str (lit "bd")) = None.
Proof. vm_compute. repeat split. Qed.

Lemma cstr_nil_iff (p : cptr) : cstr p = [] <-> deref p = NUL.
Proof.
  destruct p as [|b p]; simpl.
  - tauto.
  - destruct (is_nul b) eqn:E.
    + apply is_nul_true in E. tauto.
    + apply is_nul_false in E. split; [discriminate | contradiction].
Qed.

Lemma cstr_c_str (s : std_string) : cstr (c_str s) = cstr s.
Proof.
  unfold c_str. induction s as [|b s IH]; simpl.
  - reflexivity.
  - destruct (is_nul b); [reflexivity | now rewrite IH].
Qed.

Lemma nul_free_cons (b : byte) (s : std_string) :
  nul_free (b :: s) <-> b <> NUL /\ nul_free s.
Proof.
  unfold nul_free, has_nul. simpl. rewrite orb_false_iff, is_nul_false.
  tauto.
Qed.

Lemma nul_free_app (a b : std_string) :
  nul_free (a ++ b) <-> nul_free a /\ nul_free b.
Proof.
  unfold nul_free, has_nul. rewrite existsb_app, orb_false_iff. tauto.
Qed.

Lemma cstr_nul_free (s : std_string) : nul_free s -> cstr s = s.
Proof.
  induction s as [|b s IH]; simpl; intros Hs.
  - reflexivity.
  - apply nul_free_cons in Hs as [Hb Hs].
    apply is_nul_false in Hb. rewrite Hb. now rewrite IH.
Qed.

Lemma nul_free_cstr (p : cptr) : nul_free (cstr p).
Proof.
  induction p as [|b p IH]; simpl.
  - reflexivity.
  - destruct (is_nul b) eqn:E; [reflexivity|].
    apply nul_free_cons. split; [now apply is_nul_false | exact IH].
Qed.

Lemma nul_free_iff (s : std_string) : nul_free s <-> cstr s = s.
Proof.
  split; [apply cstr_nul_free|]. intros <-. apply nul_free_cstr.
Qed.

Lemma cstr_idem (p : cptr) : cstr (cstr p) = cstr p.
Proof. apply cstr_nul_free, nul_free_cstr. Qed.

Lemma cstr_app (a b : list byte) :
  nul_free a -> cstr (a ++ b) = a ++ cstr b.
Proof.
  induction a as [|x a IH]; simpl; intros Ha.
  - reflexivity.
  - apply nul_free_cons in Ha as [Hx Ha].
    apply is_nul_false in Hx. rewrite Hx. now rewrite IH.
Qed.

Lemma cstr_is_prefix (s : list byte) : exists r, s = cstr s ++ r.
Proof.
  induction s as [|b s [r IH]]; simpl.
  - now exists [].
  - destruct (is_nul b).
    + now exists (b :: s).
    + exists r. simpl. now rewrite <- IH.
Qed.

Lemma strlen_length (p : cptr) : strlen p = N.of_nat (List.length (cstr p)).
Proof.
  induction p as [|b p IH]; simpl.
  - reflexivity.
  - destruct (is_nul b); simpl; [reflexivity|]. rewrite IH. lia.
Qed.

Lemma firstn_strlen (p : cptr) : firstn (N.to_nat (strlen p)) p = cstr p.
Proof.
  rewrite strlen_length, Nat2N.id.
  induction p as [|b p IH]; simpl.
  - reflexivity.
  - destruct (is_nul b); simpl; [reflexivity | now rewrite IH].
Qed.

(** [strcmp] is zero exactly when the two C strings have the same
    characters. *)
Lemma strcmp_zero_iff (l r : cptr) : strcmp l r = 0%Z <-> cstr l = cstr r.
Proof.
  revert r. induction l as [|a l IH]; intros r; cbn [strcmp cstr].
  - rewrite uchar_diff_zero. split.
    + intros E. symmetry. now apply cstr_nil_iff.
    + intros E. symmetry in E. now apply cstr_nil_iff in E.
  - destruct (Byte.eqb a (deref r)) eqn:Ea.
    + apply byte_eqb_eq in Ea. destruct (is_nul a) eqn:Na.
      * apply is_nul_true in Na. split; [intros _ | reflexivity].
        symmetry. apply cstr_nil_iff. congruence.
      * destruct r as [|b r]; simpl in *.
        { apply is_nul_false in Na. congruence. }
        subst b. rewrite Na, IH. split; congruence.
    + apply byte_eqb_neq in Ea. rewrite uchar_diff_zero.
      split; [contradiction|]. intros E. exfalso. apply Ea.
      destruct r as [|b r]; simpl in *.
      * destruct (is_nul a) eqn:Na; [now apply is_nul_true | discriminate].
      * destruct (is_nul a) eqn:Na, (is_nul b) eqn:Nb; try discriminate.
        -- apply is_nul_true in Na, Nb. congruence.
        -- congruence.
Qed.

(** [found_at] holds exactly when the characters of the needle begin the
    characters of the haystack. *)
Lemma found_at_iff (hay needle : cptr) :
  found_at hay needle = true <-> exists b, cstr hay = cstr needle ++ b.
Proof.
  revert hay. induction needle as [|c needle IH]; intros hay; simpl.
  - split; [intros _; now exists (cstr hay) | reflexivity].
  - destruct (is_nul c) eqn:Nc.
    + split; [intros _; now exists (cstr hay) | reflexivity].
    + destruct hay as [|d hay]; simpl.
      * split; [discriminate | intros [b E]; discriminate].
      * destruct (is_nul d) eqn:Nd.
        { split; [discriminate | intros [b E]; discriminate]. }
        destruct (Byte.eqb d c) eqn:Edc.
        -- apply byte_eqb_eq in Edc. subst d. rewrite IH.
           split; intros [b E]; exists b; simpl; congruence.
        -- apply byte_eqb_neq in Edc.
           split; [discriminate | intros [b E]; simpl in E; congruence].
Qed.

(** [strstr] finds the needle exactly when its characters occur somewhere
    within the characters of the haystack. *)
Lemma strstr_iff (hay needle : cptr) :
  strstr hay needle <> None <->
  exists a b, cstr hay = a ++ cstr needle ++ b.
Proof.
  induction hay as [|d hay IH].
  - simpl. destruct (found_at [] needle) eqn:F.
    + apply found_at_iff in F as [b E].
      split; [intros _; exists [], b; exact E | discriminate].
    + split; [congruence|]. intros (a & b & E). exfalso.
      simpl in E. symmetry in E. apply app_eq_nil in E as [-> E].
      apply app_eq_nil in E as [E ->].
      assert (found_at [] needle = true) by
        (apply found_at_iff; exists []; simpl; now rewrite E).
      congruence.
  - cbn [strstr]. destruct (found_at (d :: hay) needle) eqn:F.
    + apply found_at_iff in F as [b E].
      split; [intros _; exists [], b; exact E | discriminate].
    + assert (NF : ~ exists b, cstr (d :: hay) = cstr needle ++ b).
      { intros Hb. apply found_at_iff in Hb. congruence. }
      simpl in *. destruct (is_nul d) eqn:Nd.
      * split; [congruence|]. intros (a & b & E). exfalso.
        symmetry in E. apply app_eq_nil in E as [-> E].
        apply NF. exists b. simpl. now rewrite E.
      * rewrite IH. split.
        -- intros (a & b & E). exists (d :: a), b. simpl. now rewrite E.
        -- intros (a & b & E). destruct a as [|x a].
           ++ exfalso. apply NF. now exists b.
           ++ simpl in E. injection E as _ E. now exists a, b.
Qed.

Lemma strstr_found_iff (hay needle : cptr) :
  (exists q, strstr hay needle = Some q) <->
  exists a b, cstr hay = a ++ cstr needle ++ b.
Proof.
  rewrite <- strstr_iff. destruct (strstr hay needle) as [q|].
  - split; [discriminate | now exists q].
  - split; [intros [q E]; discriminate | congruence].
Qed.

(** ** Counted strings *)

Lemma compare_seq_zero_iff (a b : list byte) :
  compare_seq a b = 0%Z <-> a = b.
Proof.
  revert b. induction a as [|x a IH]; intros [|y b]; cbn [compare_seq];
    try (split; [lia | discriminate]); try tauto.
  destruct (Byte.eqb x y) eqn:E.
  - apply byte_eqb_eq in E. subst y. rewrite IH. split; congruence.
  - apply byte_eqb_neq in E. rewrite uchar_diff_zero.
    split; [contradiction | congruence].
Qed.

Lemma string_eq_cstr_iff (s : std_string) (p : cptr) :
  string_eq_cstr s p = true <-> s = cstr p.
Proof.
  unfold string_eq_cstr, compare_cstr.
  rewrite Z.eqb_eq. apply compare_seq_zero_iff.
Qed.

Lemma substr_whole (s : std_string) : substr s 0 npos = s.
Proof.
  unfold substr, clamp, size. simpl.
  rewrite N.sub_0_r, Nat2N.id. apply firstn_all.
Qed.

Lemma substr_front (s : std_string) (n : nat) :
  substr s 0 (chars (N.of_nat n)) = firstn n s.
Proof.
  unfold substr, clamp, size. simpl. rewrite N.sub_0_r.
  destruct (Nat.le_ge_cases n (List.length s)) as [L|L].
  - rewrite N.min_l by lia. now rewrite Nat2N.id.
  - rewrite N.min_r by lia. rewrite Nat2N.id.
    rewrite firstn_all. symmetry. now apply firstn_all2.
Qed.

(** The comparison that [prefix::match] makes never throws, and is the
    comparison of the stored string with as many leading characters of the
    other string. *)
Lemma compare_prefix (this str : std_string) :
  compare this 0 npos str 0 (chars (size this)) =
  Some (compare_seq this (firstn (List.length this) str)).
Proof.
  unfold compare. simpl.
  replace (size this <? 0)%N with false by (symmetry; apply N.ltb_ge; lia).
  replace (size str <? 0)%N with false by (symmetry; apply N.ltb_ge; lia).
  rewrite substr_whole.
  change (size this) with (N.of_nat (List.length this)).
  now rewrite substr_front.
Qed.

Lemma firstn_length_eq_iff {A : Type} (p s : list A) :
  p = firstn (List.length p) s <-> exists r, s = p ++ r.
Proof.
  split.
  - intros E. exists (skipn (List.length p) s).
    rewrite E at 1. symmetry. apply firstn_skipn.
  - intros [r ->]. rewrite firstn_app, Nat.sub_diag, firstn_all. simpl.
    now rewrite app_nil_r.
Qed.

Lemma any_of_iff {A : Type} (range : list A) (pred : A -> bool) :
  any_of range pred = true <-> exists x, In x range /\ pred x = true.
Proof.
  induction range as [|x range IH]; simpl.
  - split; [discriminate | intros (x & [] & _)].
  - destruct (pred x) eqn:E.
    + split; [intros _; exists x; tauto | reflexivity].
    + rewrite IH. split.
      * intros (y & Hy & Py). exists y. tauto.
      * intros (y & [-> | Hy] & Py); [congruence | now exists y].
Qed.

(** ** The payloads, one by one *)

Import StringMatcher.

Lemma bool_eq_of_iff (b1 b2 : bool) : (b1 = true <-> b2 = true) -> b1 = b2.
Proof. destruct b1, b2; intros [H1 H2]; auto; symmetry; auto. Qed.

Lemma equal_match_iff (m : equal.t) (p : cptr) :
  equal.match_ m p = true <-> cstr p = cstr (equal.m_str m).
Proof.
  unfold equal.match_. rewrite Z.eqb_eq, strcmp_zero_iff, cstr_c_str.
  split; congruence.
Qed.

Lemma prefix_match_eq (m : prefix.t) (p : cptr) :
  prefix.match_ m p =
  Some (compare_seq (prefix.m_str m)
          (firstn (List.length (prefix.m_str m)) (cstr p)) =? 0)%Z.
Proof.
  unfold prefix.match_, string_of_cstr. now rewrite compare_prefix.
Qed.

Lemma prefix_match_iff (m : prefix.t) (p : cptr) :
  prefix.match_ m p = Some true <->
  exists r, cstr p = prefix.m_str m ++ r.
Proof.
  rewrite prefix_match_eq, <- firstn_length_eq_iff, <- compare_seq_zero_iff,
    <- Z.eqb_eq.
  split; congruence.
Qed.

Lemma prefix_match_total (m : prefix.t) (p : cptr) :
  exists b, prefix.match_ m p = Some b.
Proof. rewrite prefix_match_eq. eauto. Qed.

Lemma substring_match_iff (m : substring.t) (p : cptr) :
  substring.match_ m p = true <->
  exists a b, cstr p = a ++ cstr (substring.m_str m) ++ b.
Proof.
  unfold substring.match_.
  rewrite <- (cstr_c_str (substring.m_str m)), <- strstr_found_iff.
  destruct (strstr p (c_str (substring.m_str m))) as [q|].
  - split; [now exists q | reflexivity].
  - split; [discriminate | intros [q E]; discriminate].
Qed.

Lemma list_match_iff (m : list.t) (p : cptr) :
  list.match_ m p = true <-> In (cstr p) (list.m_strings m).
Proof.
  unfold list.match_. rewrite any_of_iff. split.
  - intros (s & Hs & E). apply string_eq_cstr_iff in E. now subst s.
  - intros Hin. exists (cstr p). split; [exact Hin|].
    now apply string_eq_cstr_iff.
Qed.

Lemma regex_match_eq `{RegexCapability} (m : regex.t) (p : cptr) :
  regex.match_ m p = regex_search_range (cstr p) (regex.m_regex m).
Proof.
  unfold regex.match_, regex_search. now rewrite firstn_strlen.
Qed.

(** ** The matcher *)

Section Matcher.
Context `{RC : RegexCapability}.

(** Each call returns a boolean: [compare], the one call modelled with a
    failure, is made by [prefix::match] at the positions [0]. *)
Lemma call_cstr_total (m : t) (p : cptr) :
  exists b, call_cstr m p = Some b.
Proof.
  destruct m as [[]]; cbn; eauto using prefix_match_total.
Qed.

(** What a matcher answers depends on the characters of the C string it
    is given only. *)
Lemma match_visitor_cstr (v : matcher_type) (p q : cptr) :
  cstr p = cstr q -> match_visitor p v = match_visitor q v.
Proof.
  intros E. destruct v as [m|m|m|m|m|m|m]; cbn; try reflexivity.
  - f_equal. apply bool_eq_of_iff. rewrite !equal_match_iff. now rewrite E.
  - rewrite !prefix_match_eq. now rewrite E.
  - f_equal. apply bool_eq_of_iff. rewrite !substring_match_iff.
    now rewrite E.
  - f_equal. rewrite !regex_match_eq. now rewrite E.
  - f_equal. apply bool_eq_of_iff. rewrite !list_match_iff. now rewrite E.
Qed.

Lemma call_cstr_of_call (m : t) (s : std_string) :
  call m s = call_cstr m (c_str s).
Proof. reflexivity. Qed.

Lemma call_depends_on_cstr (m : t) (s1 s2 : std_string) :
  cstr s1 = cstr s2 -> call m s1 = call m s2.
Proof.
  intros E. unfold call, call_cstr. apply match_visitor_cstr.
  now rewrite !cstr_c_str.
Qed.

Lemma call_Equal_iff (v s : std_string) :
  call (Equal v) s = Some true <-> cstr s = cstr v.
Proof.
  cbn. rewrite <- (cstr_c_str s).
  rewrite <- (equal_match_iff (equal.make_from_string v)).
  split; congruence.
Qed.

Lemma call_Prefix_iff (p s : std_string) :
  call (Prefix p) s = Some true <-> exists r, cstr s = p ++ r.
Proof.
  cbn. rewrite <- (cstr_c_str s).
  apply (prefix_match_iff (prefix.make_from_string p)).
Qed.

Lemma call_Substring_iff (sub s : std_string) :
  call (Substring sub) s = Some true <->
  exists a b, cstr s = a ++ cstr sub ++ b.
Proof.
  cbn. rewrite <- (cstr_c_str s).
  rewrite <- (substring_match_iff (substring.make_from_string sub)).
  split; congruence.
Qed.

Lemma call_List_iff (l : list.t) (x : std_string) :
  call (List l) x = Some true <-> In (cstr x) (list.m_strings l).
Proof.
  cbn. rewrite <- (cstr_c_str x), <- list_match_iff.
  split; congruence.
Qed.

(** A call that does not answer [true] answers [false]. *)
Lemma call_false (m : t) (s : std_string) :
  call m s <> Some true -> call m s = Some false.
Proof.
  destruct (call_cstr_total m (c_str s)) as [[] E];
    rewrite call_cstr_of_call, E; congruence.
Qed.

End Matcher.

(** ** The specification, claim by claim *)

#[local] Existing Instance literal_engine.

Lemma app_nul_free_iff (p s : std_string) :
  nul_free p ->
  (exists r, cstr s = p ++ r) <-> (exists r, s = p ++ r).
Proof.
  intros Hp. split.
  - intros [r E]. destruct (cstr_is_prefix s) as [r' Es].
    exists (r ++ r'). rewrite Es at 1. rewrite E. now rewrite app_assoc.
  - intros [r ->]. exists (cstr r). now apply cstr_app.
Qed.

(** C1 (as amended).  A matcher that holds [equal] with the stored text [v]
    answers [true] on the input [s] exactly when the bytes of [s] before
    its first NUL are the bytes of [v] before its first NUL, and [false]
    otherwise.  For texts [v] and [s] without a NUL byte this is: [true]
    exactly when [s] is byte for byte [v], and [false] on every [s] that
    differs from [v]. *)
Theorem equal_match_spec `{RC : RegexCapability} (v s : std_string) :
  (call (Equal v) s = Some true <-> cstr s = cstr v) /\
  (cstr s <> cstr v -> call (Equal v) s = Some false) /\
  (nul_free v -> nul_free s ->
     (call (Equal v) s = Some true <-> s = v) /\
     (s <> v -> call (Equal v) s = Some false)).
Proof.
  split; [apply call_Equal_iff|]. split.
  - intros N. apply call_false. now rewrite call_Equal_iff.
  - intros Hv Hs. rewrite call_Equal_iff.
    rewrite (cstr_nul_free v Hv), (cstr_nul_free s Hs).
    split; [tauto|]. intros N. apply call_false.
    rewrite call_Equal_iff.
    now rewrite (cstr_nul_free v Hv), (cstr_nul_free s Hs).
Qed.

Lemma equal_match_spec_witness :
  nul_free (lit "highway") /\ lit "Highway" <> lit "highway" /\
  call (Equal (lit "highway")) (lit "highway") = Some true /\
  call (Equal (lit "highway")) (lit "Highway") = Some false /\
  cstr [x62; x00; x61] <> cstr (lit "a") /\
  call (Equal (lit "a")) [x62; x00; x61] = Some false.
Proof.
  split; [reflexivity|]. split; [discriminate|]. split; [|split].
  - destruct (equal_match_spec (lit "highway") (lit "highway"))
      as (_ & _ & H).
    now apply (H eq_refl eq_refl).
  - destruct (equal_match_spec (lit "highway") (lit "Highway"))
      as (_ & _ & H).
    apply (H eq_refl eq_refl). discriminate.
  - split; [discriminate|].
    destruct (equal_match_spec (lit "a") [x62; x00; x61]) as (_ & H & _).
    apply H. discriminate.
Defined.

(** C1 as it is written fails: the stored text [a NUL b] is matched by the
    input [a], and the stored text [a] by the input [a NUL b]; neither
    input is identical to the stored text. *)
Lemma equal_match_not_identity :
  (call (Equal [x61; x00; x62]) (lit "a") = Some true /\
   lit "a" <> [x61; x00; x62]) /\
  (call (Equal (lit "a")) [x61; x00; x62] = Some true /\
   [x61; x00; x62] <> lit "a").
Proof. repeat split; discriminate. Qed.

(** C2 (as amended).  A matcher that holds [prefix] with the stored text
    [p] always returns, and answers [true] on [s] exactly when the bytes of
    [s] before its first NUL begin with [p].  For a [p] without a NUL byte
    this is: [true] exactly when [s] begins with [p], so that [p ++ s'] is
    matched for every [s'] and the empty prefix matches every input.  A [p]
    that holds a NUL byte matches no input. *)
Theorem prefix_match_spec `{RC : RegexCapability} (p s : std_string) :
  (exists b, call (Prefix p) s = Some b) /\
  (call (Prefix p) s = Some true <-> exists r, cstr s = p ++ r) /\
  (nul_free p ->
     (call (Prefix p) s = Some true <-> exists r, s = p ++ r) /\
     (forall s', call (Prefix p) (p ++ s') = Some true)) /\
  call (Prefix []) s = Some true /\
  (has_nul p = true -> call (Prefix p) s = Some false).
Proof.
  split; [apply call_cstr_total|].
  split; [apply call_Prefix_iff|]. split; [|split].
  - intros Hp. split.
    + rewrite call_Prefix_iff. now apply app_nul_free_iff.
    + intros s'. apply call_Prefix_iff. exists (cstr s'). now apply cstr_app.
  - apply call_Prefix_iff. now exists (cstr s).
  - intros Hp. apply call_false. rewrite call_Prefix_iff. intros [r E].
    pose proof (nul_free_cstr s) as Hs. rewrite E in Hs.
    apply nul_free_app in Hs as [Hs _]. unfold nul_free in Hs. congruence.
Qed.

Lemma prefix_match_spec_witness :
  nul_free (lit "foot") /\
  call (Prefix (lit "foot")) (lit "foot" ++ lit "way") = Some true /\
  has_nul [x00] = true /\
  call (Prefix [x00]) (lit "footway") = Some false.
Proof.
  split; [reflexivity|]. split; [|split; [reflexivity|]].
  - destruct (prefix_match_spec (lit "foot") (lit "footway"))
      as (_ & _ & H & _).
    apply (H eq_refl).
  - destruct (prefix_match_spec [x00] (lit "footway"))
      as (_ & _ & _ & _ & H).
    apply (H eq_refl).
Defined.

(** C2 as it is written fails: the one-byte text NUL begins with itself
    (it is [p ++ s'] for the empty [s']), and the prefix matcher that
    stores it answers [false] on it. *)
Lemma prefix_match_not_begins_with :
  call (Prefix [x00]) ([x00] ++ []) = Some false /\
  exists r, [x00] ++ [] = [x00] ++ r.
Proof. split; [reflexivity | now exists []]. Qed.

Lemma occurs_nul_free (sub s : std_string) :
  nul_free sub -> nul_free s ->
  (exists a b, cstr s = a ++ cstr sub ++ b) <->
  (exists a b, s = a ++ sub ++ b).
Proof.
  intros Hsub Hs. now rewrite (cstr_nul_free sub Hsub), (cstr_nul_free s Hs).
Qed.

Lemma cstr_app_begins (x y : list byte) :
  exists r, cstr (x ++ y) = cstr x ++ r.
Proof.
  induction x as [|c x [r IH]]; simpl.
  - now exists (cstr y).
  - destruct (is_nul c); [now exists [] | exists r; simpl; now rewrite IH].
Qed.

(** C3 (as amended).  A matcher that holds [substring] with the stored
    text [sub] answers [true] on [s] exactly when the bytes of [sub] before
    its first NUL occur within the bytes of [s] before its first NUL.  For
    [sub] and [s] without a NUL byte this is: [true] exactly when [sub]
    occurs within [s]; [a ++ sub ++ b] is matched whenever [a] holds no
    NUL byte, for every [sub] and [b], and the empty substring matches
    every input. *)
Theorem substring_match_spec `{RC : RegexCapability} (sub s : std_string) :
  (call (Substring sub) s = Some true <->
     exists a b, cstr s = a ++ cstr sub ++ b) /\
  (nul_free sub -> nul_free s ->
     (call (Substring sub) s = Some true <->
        exists a b, s = a ++ sub ++ b)) /\
  (forall a b, nul_free a ->
     call (Substring sub) (a ++ sub ++ b) = Some true) /\
  call (Substring []) s = Some true.
Proof.
  split; [apply call_Substring_iff|]. split; [|split].
  - intros Hsub Hs. rewrite call_Substring_iff.
    now apply occurs_nul_free.
  - intros a b Ha. apply call_Substring_iff.
    destruct (cstr_app_begins sub b) as [r E].
    exists a, r. rewrite cstr_app by exact Ha. now rewrite E.
  - apply call_Substring_iff. now exists [], (cstr s).
Qed.

Lemma substring_match_spec_witness :
  nul_free (lit "foot") /\ nul_free (lit "way") /\
  (call (Substring (lit "way")) (lit "foot" ++ lit "way" ++ lit "s")
     = Some true /\
   call (Substring [x61; x00; x62])
        (lit "foot" ++ [x61; x00; x62] ++ lit "s") = Some true) /\
  nul_free (lit "footways") /\
  call (Substring (lit "way")) (lit "footways") = Some true.
Proof.
  split; [reflexivity|]. split; [reflexivity|]. split; [split|split].
  - destruct (substring_match_spec (lit "way") []) as (_ & _ & H & _).
    apply (H (lit "foot") (lit "s") eq_refl).
  - destruct (substring_match_spec [x61; x00; x62] [])
      as (_ & _ & H & _).
    apply (H (lit "foot") (lit "s") eq_refl).
  - reflexivity.
  - destruct (substring_match_spec (lit "way") (lit "footways"))
      as (_ & H & _).
    apply (H eq_refl eq_refl). now exists (lit "foot"), (lit "s").
Defined.

(** C3 as it is written fails in both directions: the stored text
    [a NUL b] does not occur within the input [a] and is matched by it,
    and [x] occurs within the input [NUL x], which is not matched. *)
Lemma substring_match_not_occurrence :
  (call (Substring [x61; x00; x62]) (lit "a") = Some true /\
   ~ exists a b, lit "a" = a ++ [x61; x00; x62] ++ b) /\
  call (Substring (lit "x")) ([x00] ++ lit "x" ++ []) = Some false.
Proof.
  split; [split|]; try reflexivity.
  intros (a & b & E). apply (f_equal (@List.length byte)) in E.
  rewrite !length_app in E. simpl in E. lia.
Qed.

(** C4 (as amended).  A matcher that holds [list] with the stored texts
    [vs] answers [true] on the input [x] exactly when the bytes of [x]
    before its first NUL are a member of [vs], and [false] otherwise.  For
    an [x] without a NUL byte this is: [true] exactly when [x] is equal to
    a member of [vs], and [false] when it is equal to none. *)
Theorem list_match_spec `{RC : RegexCapability}
    (vs : list std_string) (x : std_string) :
  (call (of_strings vs) x = Some true <-> In (cstr x) vs) /\
  (~ In (cstr x) vs -> call (of_strings vs) x = Some false) /\
  (nul_free x ->
     (call (of_strings vs) x = Some true <-> In x vs) /\
     (~ In x vs -> call (of_strings vs) x = Some false)).
Proof.
  pose proof (call_List_iff (list.make_from_strings vs) x) as H.
  change (call (of_strings vs) x = Some true <-> In (cstr x) vs) in H.
  split; [exact H|]. split.
  - intros N. apply call_false. now rewrite H.
  - intros Hx. rewrite (cstr_nul_free x Hx) in H. split; [exact H|].
    intros N. apply call_false. now rewrite H.
Qed.

Lemma list_match_spec_witness :
  nul_free (lit "secondary") /\
  call (of_strings [lit "primary"; lit "secondary"; lit "tertiary"])
          (lit "secondary") = Some true /\
  call (of_strings [lit "primary"; lit "secondary"; lit "tertiary"])
          (lit "residential") = Some false /\
  call (of_strings [lit "a"; lit "b"]) [x63; x00; x61] = Some false.
Proof.
  split; [reflexivity|]. split; [|split].
  - destruct (list_match_spec
                [lit "primary"; lit "secondary"; lit "tertiary"]
                (lit "secondary")) as (_ & _ & H).
    apply (H eq_refl). simpl. tauto.
  - destruct (list_match_spec
                [lit "primary"; lit "secondary"; lit "tertiary"]
                (lit "residential")) as (_ & _ & H).
    apply (H eq_refl). simpl. intros [E|[E|[E|[]]]]; discriminate.
  - destruct (list_match_spec [lit "a"; lit "b"] [x63; x00; x61])
      as (_ & H & _).
    apply H. simpl. intros [E|[E|[]]]; discriminate.
Defined.

(** C4 as it is written fails: the text [a NUL b] is a member of the list
    that holds just it, and the matcher answers [false] on it. *)
Lemma list_match_not_membership :
  call (of_strings [[x61; x00; x62]]) [x61; x00; x62] = Some false /\
  In [x61; x00; x62] [[x61; x00; x62]].
Proof. split; [reflexivity | now left]. Qed.

(** C5.  Building a matcher from pattern text that the capability cannot
    compile fails with [InvalidPattern] and yields no matcher; and every
    matcher that a pattern text does yield holds the pattern as compiled
    and answers each call by the search for it, so that there is no
    matcher whose pattern failed and no failure left for the first call. *)
Theorem of_pattern_invalid `{RC : RegexCapability} (pattern : std_string) :
  (regex_compile pattern = Err InvalidPattern ->
     of_pattern pattern = Err InvalidPattern /\
     forall m, of_pattern pattern <> Ok m) /\
  (forall m, of_pattern pattern = Ok m ->
     exists r, regex_compile pattern = Ok r /\ m = of_regex r /\
       forall s, call m s = Some (regex_search_range (cstr s) r)).
Proof.
  unfold of_pattern. split.
  - intros ->. split; [reflexivity | discriminate].
  - intros m. destruct (regex_compile pattern) as [r|e]; [|discriminate].
    intros [= <-]. exists r. split; [reflexivity|]. split; [reflexivity|].
    intros s. cbn. f_equal.
    rewrite (regex_match_eq (regex.make r)). now rewrite cstr_c_str.
Qed.

Lemma of_pattern_invalid_witness :
  regex_compile (lit "^res(.*ial$") = Err InvalidPattern /\
  of_pattern (lit "^res(.*ial$") = Err InvalidPattern /\
  of_pattern (lit "res") = Ok (of_regex (lit "res")) /\
  call (of_regex (lit "res")) (lit "residential") = Some true.
Proof.
  split; [reflexivity|]. split; [|split].
  - destruct (of_pattern_invalid (lit "^res(.*ial$")) as (H & _).
    apply (H eq_refl).
  - reflexivity.
  - destruct (of_pattern_invalid (lit "res")) as (_ & H).
    destruct (H (@of_regex literal_engine (lit "res")) eq_refl)
      as (r & E & _ & Hs).
    injection E as <-. rewrite Hs. reflexivity.
Defined.

(** C6 (as amended).  [add_string] appends the text to the stored sequence
    and returns the list so changed, which can be appended to again: of a
    [std::string] it appends the string, of a C string the characters of
    the C string, in both cases behind all that the list held.  After
    [add_string] of a C string the list matches that C string; after
    [add_string] of a [std::string] [z] the list matches [z.c_str()]
    provided [z] holds no NUL byte; both whatever the list held before. *)
Theorem list_add_string_spec (l : list.t) (z : std_string) :
  list.m_strings (list.add_string l z) = list.m_strings l ++ [z] /\
  (forall z', list.m_strings (list.add_string (list.add_string l z) z')
              = list.m_strings l ++ [z; z']) /\
  (forall p : cptr,
     list.m_strings (list.add_string_cstr l p)
       = list.m_strings l ++ [cstr p]) /\
  (forall p q : cptr,
     list.m_strings (list.add_string_cstr (list.add_string_cstr l p) q)
       = list.m_strings l ++ [cstr p; cstr q]) /\
  (forall p : cptr, list.match_ (list.add_string_cstr l p) p = true) /\
  (nul_free z -> list.match_ (list.add_string l z) (c_str z) = true).
Proof.
  split; [reflexivity|]. split; [|split; [|split; [|split]]].
  - intros z'. simpl. now rewrite <- app_assoc.
  - reflexivity.
  - intros p q. simpl. unfold string_of_cstr. now rewrite <- app_assoc.
  - intros p. apply list_match_iff. simpl. apply in_or_app. right. now left.
  - intros Hz. apply list_match_iff. simpl. apply in_or_app. right. left.
    rewrite cstr_c_str. symmetry. now apply cstr_nul_free.
Qed.

Lemma list_add_string_spec_witness :
  nul_free (lit "z") /\
  list.match_ (list.make_from_strings [lit "a"; lit "b"]) (c_str (lit "z"))
    = false /\
  list.match_
    (list.add_string (list.make_from_strings [lit "a"; lit "b"]) (lit "z"))
    (c_str (lit "z")) = true.
Proof.
  split; [reflexivity|]. split; [reflexivity|].
  destruct (list_add_string_spec
              (list.make_from_strings [lit "a"; lit "b"]) (lit "z"))
    as (_ & _ & _ & _ & _ & H).
  apply (H eq_refl).
Defined.

(** C6 as it is written fails: after the text [a NUL b] is appended to the
    empty list, the list does not match it. *)
Lemma list_add_string_not_matched :
  list.match_ (list.add_string list.make [x61; x00; x62])
                 (c_str [x61; x00; x62]) = false.
Proof. reflexivity. Qed.

Lemma print_list_loop (vs : list std_string) (out : ostream) :
  fold_left (fun o s => o << "["%byte << s << "]"%byte) vs out =
  out ++ List.concat (map (fun v => lit "[" ++ v ++ lit "]") vs).
Proof.
  revert out. induction vs as [|v vs IH]; intros out; simpl.
  - now rewrite app_nil_r.
  - rewrite IH. unfold insert, insert_char, insert_string.
    now rewrite <- !app_assoc.
Qed.

(** C7.  Printing a matcher appends to the stream a text that its payload
    and the payload's data fix: [always_false], [always_true],
    [equal[<value>]], [prefix[<value>]], [substring[<value>]], [regex]
    without the pattern, and [list[[v1][v2]...]]; so [equal] of [foo]
    prints [equal[foo]] and the list of [a] and [b] prints
    [list[[a][b]]]. *)
Theorem print_formats `{RC : RegexCapability} (out : ostream) :
  print AlwaysFalse out = out ++ lit "always_false" /\
  print AlwaysTrue out = out ++ lit "always_true" /\
  (forall v, print (Equal v) out = out ++ lit "equal[" ++ v ++ lit "]") /\
  (forall v, print (Prefix v) out = out ++ lit "prefix[" ++ v ++ lit "]") /\
  (forall v, print (Substring v) out
             = out ++ lit "substring[" ++ v ++ lit "]") /\
  (forall r, print (Regex r) out = out ++ lit "regex") /\
  (forall vs, print (of_strings vs) out
              = out ++ lit "list["
                    ++ List.concat (map (fun v => lit "[" ++ v ++ lit "]") vs)
                    ++ lit "]") /\
  (forall m : t, out << m = print m out) /\
  describe (Equal (lit "foo")) = lit "equal[foo]" /\
  describe (of_strings [lit "a"; lit "b"]) = lit "list[[a][b]]".
Proof.
  repeat split; try reflexivity.
  - intros v. cbn. unfold equal.print, insert, insert_literal,
      insert_char, insert_string. now rewrite <- !app_assoc.
  - intros v. cbn. unfold prefix.print, insert, insert_literal,
      insert_char, insert_string. now rewrite <- !app_assoc.
  - intros v. cbn. unfold substring.print, insert, insert_literal,
      insert_char, insert_string. now rewrite <- !app_assoc.
  - intros vs. cbn. unfold list.print. rewrite print_list_loop.
    cbn [list.m_strings].
    unfold insert, insert_literal, insert_char. now rewrite <- !app_assoc.
Qed.

(** C8.  A default-constructed matcher holds [always_false] and answers
    [false] on every input; a matcher constructed from a boolean is the
    [always_true] matcher for [true] and the [always_false] matcher for
    [false], and answers that boolean on every input. *)
Theorem default_and_bool_spec `{RC : RegexCapability} (s : std_string) :
  default = AlwaysFalse /\
  call default s = Some false /\
  of_bool true = AlwaysTrue /\
  of_bool false = AlwaysFalse /\
  call (of_bool true) s = Some true /\
  call (of_bool false) s = Some false /\
  call AlwaysTrue s = Some true /\
  call AlwaysFalse s = Some false /\
  (forall p : cptr,
     call_cstr default p = Some false /\
     forall b, call_cstr (of_bool b) p = Some b).
Proof.
  repeat split; try reflexivity. now intros [].
Qed.

Lemma cstr_first_nul (s : std_string) :
  s = cstr s \/ exists rest, s = cstr s ++ NUL :: rest.
Proof.
  induction s as [|b s IH]; simpl.
  - now left.
  - destruct (is_nul b) eqn:E.
    + right. apply is_nul_true in E. subst b. now exists s.
    + destruct IH as [IH | [rest IH]].
      * left. now rewrite <- IH.
      * right. exists rest. simpl. now rewrite <- IH.
Qed.

Lemma cstr_cut (a rest : list byte) :
  nul_free a -> cstr (a ++ NUL :: rest) = a.
Proof.
  intros Ha. rewrite cstr_app by exact Ha. simpl. apply app_nil_r.
Qed.

(** C9.  Whatever a matcher holds, calling it with a [std::string] [s] is
    calling it with [s.c_str()], and gives what calling it with [cstr s]
    gives, the bytes of [s] that precede its first NUL byte ([cstr s]
    holds no NUL and [s] is [cstr s], or [cstr s] followed by a NUL and
    the rest); no bytes after that NUL change the answer. *)
Theorem call_ignores_bytes_after_nul `{RC : RegexCapability}
    (m : t) (s : std_string) :
  call m s = call_cstr m (c_str s) /\
  call m s = call m (cstr s) /\
  (forall rest, call m (cstr s ++ NUL :: rest) = call m (cstr s)) /\
  nul_free (cstr s) /\
  (s = cstr s \/ exists rest, s = cstr s ++ NUL :: rest).
Proof.
  split; [reflexivity|]. split; [|split; [|split]].
  - apply call_depends_on_cstr. symmetry. apply cstr_idem.
  - intros rest. apply call_depends_on_cstr.
    rewrite cstr_cut by apply nul_free_cstr. symmetry. apply cstr_idem.
  - apply nul_free_cstr.
  - apply cstr_first_nul.
Qed.

(** C10.  A matcher that holds a list without stored texts, made from the
    empty sequence or by the default constructor of the list, answers
    [false] on every input. *)
Theorem empty_list_never_matches `{RC : RegexCapability} (s : std_string) :
  call (of_strings []) s = Some false /\
  call (List (list.make_from_strings [])) s = Some false /\
  call (List list.make) s = Some false /\
  (forall p : cptr,
     call_cstr (of_strings []) p = Some false /\
     call_cstr (List list.make) p = Some false).
Proof.
  repeat split.
Qed.

(** ** The matcher at work *)

Example scenarios :
  call (of_cstr (c_str (lit "highway"))) (lit "highway") = Some true /\
  call (of_cstr (c_str (lit "highway"))) (lit "Highway") = Some false /\
  call (Prefix (lit "foot")) (lit "footway") = Some true /\
  call (Prefix (lit "foot")) (lit "sidewalk") = Some false /\
  call (Substring (lit "way")) (lit "footways") = Some true /\
  call (Equal (lit "a")) [x61; x00; x62] = Some true /\
  describe (Prefix (lit "foot")) = lit "prefix[foot]" /\
  describe (Regex (lit "res")) = lit "regex".
Proof. repeat split. Qed.

(** ** Further properties of the matcher *)

Lemma any_of_app {A : Type} (l1 l2 : list A) (pred : A -> bool) :
  any_of (l1 ++ l2) pred = any_of l1 pred || any_of l2 pred.
Proof.
  induction l1 as [|x l1 IH]; simpl; [reflexivity|].
  destruct (pred x); [reflexivity | exact IH].
Qed.

Lemma any_of_single {A : Type} (x : A) (pred : A -> bool) :
  any_of [x] pred = pred x.
Proof. simpl. now destruct (pred x). Qed.

Lemma call_eq_of_iff `{RC : RegexCapability} (m1 m2 : t) (s1 s2 : std_string) :
  (call m1 s1 = Some true <-> call m2 s2 = Some true) ->
  call m1 s1 = call m2 s2.
Proof.
  intros H.
  destruct (call_cstr_total m1 (c_str s1)) as [b1 E1].
  destruct (call_cstr_total m2 (c_str s2)) as [b2 E2].
  unfold call in *. rewrite E1, E2 in *. f_equal.
  apply bool_eq_of_iff. split; intros ->.
  - destruct H as [H _]. specialize (H eq_refl). congruence.
  - destruct H as [_ H]. specialize (H eq_refl). congruence.
Qed.

Lemma call_of_strings_iff `{RC : RegexCapability}
    (vs : list std_string) (s : std_string) :
  call (of_strings vs) s = Some true <-> In (cstr s) vs.
Proof. apply (call_List_iff (list.make_from_strings vs)). Qed.

(** Two [equal] matchers answer alike on every input exactly when their
    stored texts agree up to the first NUL; matching by [equal] is
    symmetric in the stored text and the input, and transitive. *)
Theorem equal_matchers_indistinguishable `{RC : RegexCapability}
    (v1 v2 : std_string) :
  ((forall s, call (Equal v1) s = call (Equal v2) s) <-> cstr v1 = cstr v2) /\
  call (Equal v1) v2 = call (Equal v2) v1 /\
  (forall v3, call (Equal v1) v2 = Some true ->
              call (Equal v2) v3 = Some true ->
              call (Equal v1) v3 = Some true).
Proof.
  split; [split|split].
  - intros H. specialize (H v1).
    assert (E : call (Equal v1) v1 = Some true) by now apply call_Equal_iff.
    rewrite H in E. now apply call_Equal_iff in E.
  - intros E s. apply call_eq_of_iff. rewrite !call_Equal_iff.
    split; congruence.
  - apply call_eq_of_iff. rewrite !call_Equal_iff. split; congruence.
  - intros v3. rewrite !call_Equal_iff. congruence.
Qed.

Lemma equal_matchers_indistinguishable_witness :
  cstr [x61; x00; x62] = cstr (lit "a") /\
  call (Equal [x61; x00; x62]) (lit "a") = call (Equal (lit "a")) (lit "a") /\
  call (Equal (lit "a")) (lit "a") = Some true.
Proof.
  split; [reflexivity|].
  destruct (equal_matchers_indistinguishable [x61; x00; x62] (lit "a"))
    as ([_ H] & _ & _).
  split; [apply (H eq_refl)|].
  destruct (equal_matchers_indistinguishable (lit "a") (lit "a"))
    as (_ & _ & H3).
  apply (H3 (lit "a")); reflexivity.
Defined.

Lemma describe_Equal `{RC : RegexCapability} (v : std_string) :
  describe (Equal v) = lit "equal[" ++ v ++ lit "]".
Proof. reflexivity. Qed.

(** The constructor of a matcher from a [std::string] and the one from a
    [const char *], applied to the [c_str()] of the same string, give
    matchers that answer alike on every input; they print the same text
    exactly when the string holds no NUL byte, as the first stores the
    whole string and the second its bytes before the first NUL. *)
Theorem text_constructors_agree `{RC : RegexCapability} (s : std_string) :
  (forall x, call (of_string s) x = call (of_cstr (c_str s)) x) /\
  (forall p : cptr,
     call_cstr (of_string s) p = call_cstr (of_cstr (c_str s)) p) /\
  (describe (of_string s) = describe (of_cstr (c_str s)) <-> nul_free s).
Proof.
  assert (A : forall p : cptr,
             call_cstr (of_string s) p = call_cstr (of_cstr (c_str s)) p).
  { intros p. cbn. f_equal. apply bool_eq_of_iff.
    rewrite !equal_match_iff. cbn. unfold string_of_cstr.
    now rewrite cstr_c_str, cstr_idem. }
  split; [intros x; apply A|]. split; [exact A|].
  change (of_string s) with (Equal s).
  change (of_cstr (c_str s)) with (Equal (string_of_cstr (c_str s))).
  rewrite !describe_Equal. unfold string_of_cstr. rewrite cstr_c_str.
  rewrite nul_free_iff. split.
  - intros E. apply app_inv_head in E. apply app_inv_tail in E. congruence.
  - intros E. now rewrite E.
Qed.

Lemma text_constructors_agree_witness :
  nul_free (lit "highway") /\
  describe (of_string (lit "highway"))
    = describe (of_cstr (c_str (lit "highway"))).
Proof.
  split; [reflexivity|].
  destruct (text_constructors_agree (lit "highway")) as (_ & _ & [_ H]).
  apply (H eq_refl).
Defined.

Lemma call_Prefix_self `{RC : RegexCapability} (p : std_string) :
  call (Prefix p) p = Some true <-> nul_free p.
Proof.
  rewrite call_Prefix_iff. split.
  - intros [r E]. pose proof (nul_free_cstr p) as H. rewrite E in H.
    now apply nul_free_app in H.
  - intros H. exists []. rewrite app_nil_r. now apply cstr_nul_free.
Qed.

(** A matcher and its own text.  [equal] and [substring] match the text
    they store, whatever it is; [prefix] and a list match a text they
    store exactly when it holds no NUL byte.  Built from a C string, each
    of the four matches that C string. *)
Theorem matchers_match_their_text `{RC : RegexCapability} (s : std_string) :
  call (Equal s) s = Some true /\
  call (Substring s) s = Some true /\
  (call (Prefix s) s = Some true <-> nul_free s) /\
  (call (of_strings [s]) s = Some true <-> nul_free s) /\
  (forall p : cptr,
     call_cstr (of_cstr p) p = Some true /\
     call_cstr (of_matcher (alt_prefix (prefix.make_from_cstr p))) p
       = Some true /\
     call_cstr (of_matcher (alt_substring (substring.make_from_cstr p))) p
       = Some true /\
     call_cstr (List (list.add_string_cstr list.make p)) p = Some true).
Proof.
  split; [now apply call_Equal_iff|].
  split; [apply call_Substring_iff; exists [], []; now rewrite app_nil_r|].
  split; [apply call_Prefix_self|]. split.
  - rewrite call_of_strings_iff, nul_free_iff. simpl. split.
    + intros [E|[]]. congruence.
    + intros E. left. congruence.
  - intros p. unfold call_cstr, List, of_cstr, of_matcher.
    cbn [m_matcher match_visitor]. repeat split.
    + f_equal. apply equal_match_iff. cbn. unfold string_of_cstr.
      symmetry. apply cstr_idem.
    + apply prefix_match_iff. cbn. exists []. unfold string_of_cstr.
      now rewrite app_nil_r.
    + f_equal. apply substring_match_iff. cbn. exists [], [].
      unfold string_of_cstr. now rewrite cstr_idem, app_nil_r.
    + f_equal. apply list_match_iff. cbn. now left.
Qed.

Lemma matchers_match_their_text_witness :
  nul_free (lit "foot") /\
  call (Prefix (lit "foot")) (lit "foot") = Some true /\
  call (of_strings [lit "foot"]) (lit "foot") = Some true /\
  call (Prefix [x61; x00]) [x61; x00] <> Some true.
Proof.
  split; [reflexivity|].
  destruct (matchers_match_their_text (lit "foot")) as (_ & _ & H3 & H4 & _).
  split; [apply H3; reflexivity|]. split; [apply H4; reflexivity|].
  destruct (matchers_match_their_text [x61; x00]) as (_ & _ & H & _).
  intros E. apply H in E. discriminate E.
Defined.

(** How the payloads order.  What [equal] or [prefix] matches with a
    stored text, [substring] matches with it; what the list of just that
    text matches, [equal] and [prefix] match; what [prefix] matches and is
    no longer than the stored text, [equal] matches; and when the stored
    text holds no NUL byte, what [equal] matches, [prefix] and the list of
    just that text match. *)
Theorem payloads_ordered `{RC : RegexCapability} (v s : std_string) :
  (call (Equal v) s = Some true -> call (Substring v) s = Some true) /\
  (call (Prefix v) s = Some true -> call (Substring v) s = Some true) /\
  (call (of_strings [v]) s = Some true ->
     call (Equal v) s = Some true /\ call (Prefix v) s = Some true) /\
  (call (Prefix v) s = Some true ->
     (List.length (cstr s) <= List.length v)%nat ->
     call (Equal v) s = Some true) /\
  (nul_free v -> call (Equal v) s = Some true ->
     call (Prefix v) s = Some true /\ call (of_strings [v]) s = Some true).
Proof.
  rewrite call_Equal_iff, call_Prefix_iff, call_Substring_iff,
    call_of_strings_iff.
  split; [|split; [|split; [|split]]].
  - intros E. exists [], []. now rewrite app_nil_r.
  - intros [r E]. exists [], r. simpl. rewrite E. f_equal.
    symmetry. apply cstr_nul_free.
    pose proof (nul_free_cstr s) as H. rewrite E in H.
    now apply nul_free_app in H.
  - simpl. intros [E|[]]. subst v. split.
    + symmetry. apply cstr_idem.
    + exists []. now rewrite app_nil_r.
  - intros [r E] L. rewrite E, length_app in L.
    destruct r as [|x r]; [|simpl in L; lia].
    rewrite app_nil_r in E. rewrite E. symmetry. apply cstr_nul_free.
    rewrite <- E. apply nul_free_cstr.
  - intros Hv E. rewrite (cstr_nul_free v Hv) in E. split.
    + exists []. now rewrite app_nil_r.
    + simpl. left. congruence.
Qed.

Lemma payloads_ordered_witness :
  call (Prefix (lit "foot")) (lit "footway") = Some true /\
  call (Substring (lit "foot")) (lit "footway") = Some true /\
  nul_free (lit "foot") /\
  call (Equal (lit "foot")) (lit "foot") = Some true /\
  call (of_strings [lit "foot"]) (lit "foot") = Some true /\
  call (Substring (lit "foot")) (lit "foot") = Some true.
Proof.
  split; [reflexivity|].
  destruct (payloads_ordered (lit "foot") (lit "footway")) as (_ & H2 & _).
  split; [apply H2; reflexivity|]. split; [reflexivity|].
  destruct (payloads_ordered (lit "foot") (lit "foot"))
    as (H1 & H2' & H3 & H4 & H5).
  assert (E : call (Equal (lit "foot")) (lit "foot") = Some true).
  { apply H4; [reflexivity | simpl; lia]. }
  split; [exact E|]. split; [apply (H5 eq_refl E)|].
  apply H1. apply H3. apply (H5 eq_refl E).
Defined.

(** A list matches by membership alone: two lists with the same members,
    in whatever order and however often repeated, answer alike on every
    input. *)
Theorem list_match_members_only `{RC : RegexCapability}
    (vs1 vs2 : list std_string) :
  (forall v, In v vs1 <-> In v vs2) ->
  forall s, call (of_strings vs1) s = call (of_strings vs2) s.
Proof.
  intros H s. apply call_eq_of_iff. rewrite !call_of_strings_iff. apply H.
Qed.

Lemma list_match_members_only_witness :
  call (of_strings [lit "a"; lit "b"; lit "a"]) (lit "b")
  = call (of_strings [lit "b"; lit "a"]) (lit "b").
Proof.
  apply list_match_members_only. intros v. simpl. tauto.
Defined.

(** [add_string] extends what a list matches by the text added and by
    nothing else: afterwards the list matches what it matched before and
    the C strings equal to the added text.  No match is lost, the order of
    two additions does not matter to matching, and a list made of two
    sequences matches what either matches. *)
Theorem add_string_extends_match (l : list.t) (z : std_string) (p : cptr) :
  list.match_ (list.add_string l z) p
    = list.match_ l p || string_eq_cstr z p /\
  list.match_ (list.add_string_cstr l z) p
    = list.match_ l p || string_eq_cstr (cstr z) p /\
  (list.match_ l p = true -> list.match_ (list.add_string l z) p = true) /\
  (forall z', list.match_ (list.add_string (list.add_string l z) z') p
              = list.match_ (list.add_string (list.add_string l z') z) p) /\
  (forall vs1 vs2,
     list.match_ (list.make_from_strings (vs1 ++ vs2)) p
     = list.match_ (list.make_from_strings vs1) p
       || list.match_ (list.make_from_strings vs2) p).
Proof.
  unfold list.match_, list.add_string, list.add_string_cstr.
  cbn [list.m_strings]. rewrite !any_of_app, !any_of_single.
  split; [reflexivity|]. split; [reflexivity|]. split; [|split].
  - intros ->. reflexivity.
  - intros z'. rewrite !any_of_app, !any_of_single.
    rewrite <- !orb_assoc. f_equal. apply orb_comm.
  - intros vs1 vs2. apply any_of_app.
Qed.

Lemma add_string_extends_match_witness :
  list.match_ (list.make_from_strings [lit "a"]) (c_str (lit "a")) = true /\
  list.match_ (list.add_string (list.make_from_strings [lit "a"]) (lit "z"))
              (c_str (lit "a")) = true.
Proof.
  split; [reflexivity|].
  destruct (add_string_extends_match (list.make_from_strings [lit "a"])
              (lit "z") (c_str (lit "a"))) as (_ & _ & H & _).
  apply (H eq_refl).
Defined.

(** Stored texts that hold a NUL byte are dead entries of a list: the
    list answers on every input as the list without them. *)
Theorem list_nul_entries_dead `{RC : RegexCapability}
    (vs : list std_string) (s : std_string) :
  call (of_strings vs) s
  = call (of_strings (filter (fun v => negb (has_nul v)) vs)) s.
Proof.
  apply call_eq_of_iff. rewrite !call_of_strings_iff, filter_In.
  split; [|tauto]. intros H. split; [exact H|].
  pose proof (nul_free_cstr s) as N. unfold nul_free in N. now rewrite N.
Qed.

Lemma app_same_length_eq {A : Type} (p q r r' : list A) :
  p = q ++ r -> q = p ++ r' -> p = q.
Proof.
  intros E1 E2. apply (f_equal (@List.length A)) in E1 as L1.
  apply (f_equal (@List.length A)) in E2 as L2.
  rewrite length_app in L1, L2.
  destruct r as [|x r]; [now rewrite app_nil_r in E1|]. simpl in L1. lia.
Qed.

(** Two [prefix] matchers answer alike on every input exactly when they
    store the same text or each stores a text with a NUL byte (and so
    matches nothing); and a longer stored text matches less: what matches
    with [p ++ q] matches with [p]. *)
Theorem prefix_matchers_indistinguishable `{RC : RegexCapability}
    (p1 p2 : std_string) :
  ((forall s, call (Prefix p1) s = call (Prefix p2) s) <->
     p1 = p2 \/ (has_nul p1 = true /\ has_nul p2 = true)) /\
  (forall q s, call (Prefix (p1 ++ q)) s = Some true ->
               call (Prefix p1) s = Some true).
Proof.
  split; [split|].
  - intros H.
    destruct (has_nul p1) eqn:N1, (has_nul p2) eqn:N2; [now right|..].
    + exfalso. pose proof (proj2 (call_Prefix_self p2) N2) as E.
      rewrite <- H in E. apply call_Prefix_iff in E as [r E].
      pose proof (nul_free_cstr p2) as F. rewrite E in F.
      apply nul_free_app in F as [F _]. unfold nul_free in F. congruence.
    + exfalso. pose proof (proj2 (call_Prefix_self p1) N1) as E.
      rewrite H in E. apply call_Prefix_iff in E as [r E].
      pose proof (nul_free_cstr p1) as F. rewrite E in F.
      apply nul_free_app in F as [F _]. unfold nul_free in F. congruence.
    + left. pose proof (proj2 (call_Prefix_self p1) N1) as E1.
      pose proof (proj2 (call_Prefix_self p2) N2) as E2.
      rewrite H in E1. rewrite <- H in E2.
      apply call_Prefix_iff in E1 as [r1 E1].
      apply call_Prefix_iff in E2 as [r2 E2].
      rewrite (cstr_nul_free p1 N1) in E1. rewrite (cstr_nul_free p2 N2) in E2.
      eapply app_same_length_eq; eassumption.
  - intros [-> | [N1 N2]] s; [reflexivity|].
    apply call_eq_of_iff. rewrite !call_Prefix_iff.
    split; intros [r E]; exfalso;
      pose proof (nul_free_cstr s) as F; rewrite E in F;
      apply nul_free_app in F as [F _]; unfold nul_free in F; congruence.
  - intros q s. rewrite !call_Prefix_iff. intros [r E].
    exists (q ++ r). now rewrite E, app_assoc.
Qed.

Lemma prefix_matchers_indistinguishable_witness :
  has_nul [x61; x00] = true /\ has_nul [x00; x62] = true /\
  call (Prefix [x61; x00]) (lit "a") = call (Prefix [x00; x62]) (lit "a") /\
  call (Prefix (lit "foot" ++ lit "way")) (lit "footways") = Some true /\
  call (Prefix (lit "foot")) (lit "footways") = Some true.
Proof.
  split; [reflexivity|]. split; [reflexivity|].
  destruct (prefix_matchers_indistinguishable [x61; x00] [x00; x62])
    as ([_ H] & _).
  split; [apply H; right; split; reflexivity|].
  split; [reflexivity|].
  destruct (prefix_matchers_indistinguishable (lit "foot") (lit "foot"))
    as (_ & H2).
  apply (H2 (lit "way") (lit "footways")). reflexivity.
Defined.

(** A [substring] matcher with a longer stored text matches less: when
    [a] and [sub] hold no NUL byte, what matches with [a ++ sub ++ b]
    matches with [sub]. *)
Theorem substring_match_monotone `{RC : RegexCapability}
    (a sub b s : std_string) :
  nul_free a -> nul_free sub ->
  call (Substring (a ++ sub ++ b)) s = Some true ->
  call (Substring sub) s = Some true.
Proof.
  intros Ha Hsub. rewrite !call_Substring_iff.
  rewrite (cstr_app a _ Ha), (cstr_app sub _ Hsub), (cstr_nul_free sub Hsub).
  intros (x & y & E). exists (x ++ a), (cstr b ++ y).
  rewrite E. now rewrite <- !app_assoc.
Qed.

Lemma substring_match_monotone_witness :
  call (Substring (lit "otw")) (lit "footway") = Some true /\
  call (Substring (lit "t")) (lit "footway") = Some true.
Proof.
  split; [reflexivity|].
  apply (substring_match_monotone (lit "o") (lit "t") (lit "w"));
    reflexivity.
Defined.

(** The empty input, and every input that starts with a NUL byte, is
    matched by [equal] and by [substring] exactly when the stored text is
    empty up to its first NUL, by [prefix] exactly when the stored text is
    empty, and by a list exactly when the empty text is a member. *)
Theorem empty_input_match `{RC : RegexCapability}
    (v : std_string) (vs : list std_string) (s : std_string) :
  cstr s = [] ->
  (call (Equal v) s = Some true <-> cstr v = []) /\
  (call (Substring v) s = Some true <-> cstr v = []) /\
  (call (Prefix v) s = Some true <-> v = []) /\
  (call (of_strings vs) s = Some true <-> In [] vs).
Proof.
  intros E.
  rewrite call_Equal_iff, call_Substring_iff, call_Prefix_iff,
    call_of_strings_iff, E.
  split; [split; congruence|]. split; [|split; [|tauto]].
  - split.
    + intros (a & b & H). symmetry in H. apply app_eq_nil in H as [_ H].
      now apply app_eq_nil in H.
    + intros ->. now exists [], [].
  - split.
    + intros [r H]. symmetry in H. now apply app_eq_nil in H.
    + intros ->. now exists [].
Qed.

Lemma empty_input_match_witness :
  cstr [x00; x61] = [] /\
  call (Equal []) [x00; x61] = Some true /\
  call (of_strings [lit "a"; []]) [] = Some true.
Proof.
  split; [reflexivity|].
  destruct (empty_input_match [] [] [x00; x61] eq_refl) as ([_ H] & _).
  split; [apply H; reflexivity|].
  destruct (empty_input_match [] [lit "a"; []] [] eq_refl)
    as (_ & _ & _ & [_ H4]).
  apply H4. simpl. tauto.
Defined.

(** The two ways to call a matcher agree: calling it with a C string is
    calling it with the [std::string] made from that C string; and the
    answer depends on the characters of the C string only, not on the
    bytes that lie behind its terminator. *)
Theorem calling_conventions_agree `{RC : RegexCapability} (m : t) (p : cptr) :
  call_cstr m p = call m (string_of_cstr p) /\
  (forall q : cptr, cstr p = cstr q -> call_cstr m p = call_cstr m q).
Proof.
  split.
  - unfold call, call_cstr, string_of_cstr. apply match_visitor_cstr.
    now rewrite cstr_c_str, cstr_idem.
  - intros q E. now apply match_visitor_cstr.
Qed.

Lemma calling_conventions_agree_witness :
  cstr (lit "way" ++ [x00; x61]) = cstr (c_str (lit "way")) /\
  call_cstr (Substring (lit "a")) (lit "way" ++ [x00; x61])
  = call_cstr (Substring (lit "a")) (c_str (lit "way")).
Proof.
  split; [reflexivity|].
  apply (calling_conventions_agree (Substring (lit "a"))). reflexivity.
Defined.

Lemma add_string_fold (vs : list std_string) (l : list.t) :
  fold_left list.add_string vs l
  = list.make_from_strings (list.m_strings l ++ vs).
Proof.
  revert l. induction vs as [|v vs IH]; intros [ms].
  - cbn. now rewrite app_nil_r.
  - cbn [fold_left]. rewrite IH. cbn. now rewrite <- app_assoc.
Qed.

(** Building a list by [add_string], one text after the other from the
    empty list, gives the list that is constructed from the sequence of
    the texts: the same stored sequence, hence the same matcher. *)
Theorem add_string_chain_builds_list `{RC : RegexCapability}
    (vs : list std_string) (l : list.t) :
  fold_left list.add_string vs l
    = list.make_from_strings (list.m_strings l ++ vs) /\
  fold_left list.add_string vs list.make = list.make_from_strings vs /\
  List (fold_left list.add_string vs list.make) = of_strings vs.
Proof.
  split; [apply add_string_fold|].
  assert (E : fold_left list.add_string vs list.make
              = list.make_from_strings vs) by apply add_string_fold.
  split; [exact E|]. now rewrite E.
Qed.

(** ** Printing *)

Lemma describe_list `{RC : RegexCapability} (l : list.t) :
  describe (List l) =
  (lit "list[" ++ List.concat (map (fun v => lit "[" ++ v ++ lit "]")
                                   (list.m_strings l))) ++ lit "]".
Proof.
  unfold describe, insert, insert_matcher, print, List, of_matcher.
  cbn [m_matcher print_visitor]. unfold list.print.
  rewrite print_list_loop. reflexivity.
Qed.

(** Printing a matcher leaves what the stream holds and appends the text
    of the matcher, which is never empty; so printing one matcher after
    another gives the two texts in a row. *)
Theorem print_appends_describe `{RC : RegexCapability}
    (m : t) (out : ostream) :
  print m out = out ++ describe m /\
  describe m <> [] /\
  (forall m2 : t, out << m << m2 = out ++ describe m ++ describe m2).
Proof.
  assert (A : forall (m : t) (out : ostream), print m out = out ++ describe m).
  { clear. intros [[m|m|m|m|m|m|m]] out;
      unfold describe, insert, insert_matcher, print;
      cbn [m_matcher print_visitor];
      try (unfold always_false.print, always_true.print, equal.print,
             prefix.print, substring.print, regex.print,
             insert, insert_literal, insert_char, insert_string;
           cbn [app]; now rewrite <- ?app_assoc).
    unfold list.print. rewrite !print_list_loop.
    unfold insert, insert_literal, insert_char. cbn [app].
    now rewrite <- !app_assoc. }
  split; [apply A|]. split.
  - destruct m as [[m|m|m|m|m|m|m]]; try discriminate.
    change (describe (List m) <> []). rewrite describe_list.
    intros E. apply app_eq_nil in E as [_ E]. discriminate.
  - intros m2. unfold insert at 1 2, insert_matcher.
    rewrite (A m2), (A m). now rewrite <- app_assoc.
Qed.

(** The printed list keeps the order of insertion: after [add_string] the
    text of the list is the former text with the added entry set before
    the closing bracket. *)
Theorem describe_add_string `{RC : RegexCapability}
    (l : list.t) (z : std_string) :
  describe (List (list.add_string l z))
  = removelast (describe (List l)) ++ lit "[" ++ z ++ lit "]" ++ lit "]".
Proof.
  rewrite !describe_list. change (lit "]") with [x5d].
  rewrite removelast_last. cbn [list.add_string list.m_strings].
  rewrite map_app, concat_app. cbn [map List.concat].
  rewrite app_nil_r. now rewrite <- !app_assoc.
Qed.

(** ** main.cpp *)

Lemma skipn_repeat_all {A : Type} (x : A) (l : list A) :
  skipn (List.length l) (repeat x (List.length l)) = [].
Proof. apply skipn_all2. now rewrite repeat_length. Qed.

Lemma ReadFile_eq (fs : file_system) (path : std_string) :
  ReadFile fs path =
  match fs path with
  | Some (b :: bytes) => Some (b :: bytes)
  | _ => None
  end.
Proof.
  unfold ReadFile, ifstream_open_ate.
  destruct (fs path) as [bytes|]; [|reflexivity].
  cbn [fail tellg seekg read file_bytes]. unfold vector_of_size, size.
  rewrite Nat2N.id. cbn [N.to_nat skipn]. rewrite firstn_all.
  rewrite skipn_repeat_all, app_nil_r. now destruct bytes.
Qed.

(** [ReadFile] gives the whole contents of a file that can be opened and
    is not empty, and nothing for a file that cannot be opened or is
    empty: the two cases cannot be told apart, and the result is never an
    empty vector. *)
Theorem ReadFile_contents (fs : file_system) (path : std_string) :
  (ReadFile fs path = None <-> fs path = None \/ fs path = Some []) /\
  (forall contents,
     ReadFile fs path = Some contents <->
     fs path = Some contents /\ contents <> []).
Proof.
  rewrite ReadFile_eq. destruct (fs path) as [[|b bytes]|].
  - split; [tauto|]. intros c. split; [discriminate|].
    intros [[= <-] N]. now destruct N.
  - split.
    + split; [discriminate | intros [E|E]; discriminate].
    + intros c. split.
      * intros [= <-]. split; [reflexivity | discriminate].
      * now intros [[= <-] _].
  - split; [tauto|]. intros c.
    split; [discriminate | intros [E _]; discriminate].
Qed.

Lemma ReadFile_contents_witness :
  ReadFile (fun path => if empty path then None else Some path) (lit "x.pbf")
  = Some (lit "x.pbf").
Proof.
  apply ReadFile_contents. split; [reflexivity | discriminate].
Defined.

(** [main] reads the file [../data.osm.pbf]: it announces the file, writes
    [Failed to read.] as well exactly when the file cannot be opened or is
    empty, and returns [0] in either case. *)
Theorem main_reports (fs : file_system) :
  fst (main fs) = 0%Z /\
  ((fs (lit "../data.osm.pbf") = None \/
    fs (lit "../data.osm.pbf") = Some []) ->
     snd (main fs)
     = lit "Reading OSP data from the following file: ../data.osm.pbf"
       ++ [x0a] ++ lit "Failed to read." ++ [x0a]) /\
  (forall contents,
     fs (lit "../data.osm.pbf") = Some contents -> contents <> [] ->
     snd (main fs)
     = lit "Reading OSP data from the following file: ../data.osm.pbf"
       ++ [x0a]).
Proof.
  unfold main. cbn [empty andb negb lit].
  change (lit "../data" ++ lit "" ++ lit ".osm.pbf")
    with (lit "../data.osm.pbf").
  rewrite ReadFile_eq.
  destruct (fs (lit "../data.osm.pbf")) as [[|b bytes]|].
  - split; [reflexivity|]. split; [reflexivity|].
    intros c [= <-] Nc. now destruct Nc.
  - split; [reflexivity|]. split; [|reflexivity].
    intros [E|E]; discriminate.
  - split; [reflexivity|]. split; [reflexivity | discriminate].
Qed.

Lemma main_reports_witness :
  snd (main (fun _ => None))
  = lit "Reading OSP data from the following file: ../data.osm.pbf"
    ++ [x0a] ++ lit "Failed to read." ++ [x0a] /\
  snd (main (fun _ => Some [x00]))
  = lit "Reading OSP data from the following file: ../data.osm.pbf" ++ [x0a].
Proof.
  split.
  - apply (main_reports (fun _ => None)). now left.
  - apply (main_reports (fun _ => Some [x00]) ) with (contents := [x00]);
      [reflexivity | discriminate].
Defined.
